(** * AutoTextETL: the C++ text engine, [split_by_delimiter]

    Shallow embedding of
    [src/infrastructure/cpp_core/text_engine.cpp].

    A [std::string] is a finite sequence of [char]; positions and lengths
    are [size_t], modelled as [Z] with the reduction modulo [2^64] written
    out where the code adds or subtracts.  The [while] loop is modelled by
    its body ([loop_step]) iterated under a fuel bound ([run_loop]). *)

From Stdlib Require Import ZArith List Bool Ascii String Lia.
Import ListNotations.

Local Open Scope Z_scope.

(** ** Data *)

(** [std::string]. *)
Definition cxx_string : Type := list ascii.

(** String literals for texts, delimiters and expected segments. *)
Definition str (s : string) : cxx_string := list_ascii_of_string s.

(** [size_t] on the 64-bit target: values in [0, 2^64). *)
Definition size_t_modulus : Z := 2 ^ 64.

Definition wrap (z : Z) : Z := z mod size_t_modulus.

(** [std::string::npos], that is [static_cast<size_t>(-1)]. *)
Definition npos : Z := size_t_modulus - 1.

(** [s.size()] and [s.length()]. *)
Definition size (s : cxx_string) : Z := Z.of_nat (List.length s).

(** ** Library operations used by the function *)

(** Character-wise comparison of [p] against the beginning of [s]
    ([traits::compare] over [p.size()] characters, failing when [s] is
    shorter). *)
Fixpoint starts_with (p s : cxx_string) : bool :=
  match p, s with
  | [], _ => true
  | _ :: _, [] => false
  | a :: p', b :: s' => Ascii.eqb a b && starts_with p' s'
  end.

(** The scan of [find]: [s] is the part of the text from position [xpos]
    on; the first position where [delim] matches is returned, [npos] when
    the text is exhausted. *)
Fixpoint find_at (delim s : cxx_string) (xpos : Z) : Z :=
  if starts_with delim s then xpos
  else match s with
       | [] => npos
       | _ :: s' => find_at delim s' (xpos + 1)
       end.

(** [text.find(delim, pos)]: the lowest [xpos] with [pos <= xpos],
    [xpos + delim.size() <= text.size()] and [delim] matching at [xpos];
    [npos] when there is none. *)
Definition find (text delim : cxx_string) (pos : Z) : Z :=
  if size text <? pos then npos
  else find_at delim (skipn (Z.to_nat pos) text) pos.

(** [s.substr(pos, n)]: throws [std::out_of_range] ([None]) when
    [pos > s.size()]; otherwise the characters [pos, pos + rlen) where
    [rlen] is the smaller of [n] and [s.size() - pos]. *)
Definition substr (s : cxx_string) (pos n : Z) : option cxx_string :=
  if size s <? pos then None
  else
    let rlen := Z.min n (size s - pos) in
    Some (firstn (Z.to_nat rlen) (skipn (Z.to_nat pos) s)).

(** ** The loop of [split_by_delimiter] *)

(** The locals that live across iterations: [result] and [start]
    ([end] is reassigned by every evaluation of the loop condition). *)
Record loop_state : Type := mk_state {
  result : list cxx_string;
  start : Z
}.

Inductive step_result : Type :=
| Continue (st : loop_state)   (* the body ran; back to the condition *)
| Break (st : loop_state)      (* [find] gave [npos]; the loop is left *)
| Throw.                       (* [substr] threw [std::out_of_range] *)

(** One evaluation of the condition, followed by the body when it holds:
<<
    while ((end = text.find(delimiter, start)) != std::string::npos) {
        result.push_back(text.substr(start, end - start));
        start = end + delimiter.length();
    }
>> *)
Definition loop_step (text delimiter : cxx_string) (st : loop_state)
  : step_result :=
  let end_ := find text delimiter (start st) in
  if end_ =? npos then Break st
  else
    match substr text (start st) (wrap (end_ - start st)) with
    | None => Throw
    | Some seg =>
        Continue {| result := result st ++ [seg];
                    start := wrap (end_ + size delimiter) |}
    end.

(** What a call can do. *)
Inductive outcome : Type :=
| Returned (segments : list cxx_string)
| OutOfRange
| OutOfFuel.

(** The statements after the loop:
<<
    result.push_back(text.substr(start));
    return result;
>> *)
Definition finish (text : cxx_string) (st : loop_state) : outcome :=
  match substr text (start st) npos with
  | None => OutOfRange
  | Some seg => Returned (result st ++ [seg])
  end.

(** The loop followed by the final statements; [fuel] bounds the number of
    evaluations of the loop condition. *)
Fixpoint run_loop (fuel : nat) (text delimiter : cxx_string)
  (st : loop_state) : outcome :=
  match fuel with
  | O => OutOfFuel
  | S fuel' =>
      match loop_step text delimiter st with
      | Continue st' => run_loop fuel' text delimiter st'
      | Break st' => finish text st'
      | Throw => OutOfRange
      end
  end.

(** [size_t start = 0, end = 0;] with an empty [result]. *)
Definition initial_state : loop_state := {| result := []; start := 0 |}.

Definition split_by_delimiter (fuel : nat) (text delimiter : cxx_string)
  : outcome :=
  run_loop fuel text delimiter initial_state.

(** States the loop condition is evaluated in during a call. *)
Inductive reachable (text delimiter : cxx_string) : loop_state -> Prop :=
| reach_init : reachable text delimiter initial_state
| reach_step st st' :
    reachable text delimiter st ->
    loop_step text delimiter st = Continue st' ->
    reachable text delimiter st'.

(** ** Vocabulary of the specification *)

(** [join segs sep]: the segments with [sep] between consecutive ones. *)
Fixpoint join (segs : list cxx_string) (sep : cxx_string) : cxx_string :=
  match segs with
  | [] => []
  | [s] => s
  | s :: rest => s ++ sep ++ join rest sep
  end.

(** [delim] occurs in [s] at offset [k]. *)
Definition occurs_at (delim s : cxx_string) (k : nat) : Prop :=
  exists pre post, s = pre ++ delim ++ post /\ List.length pre = k.

(** [s] contains [delim] as a substring. *)
Definition occurs_in (delim s : cxx_string) : Prop :=
  exists k, occurs_at delim s k.

(** Decision of [occurs_in]: try every offset. *)
Definition contains (delim s : cxx_string) : bool :=
  existsb (fun k => starts_with delim (skipn k s))
          (seq 0 (S (List.length s))).

(** Number of non-overlapping occurrences of [delim] in [s], counted from
    the left: an occurrence consumes the characters it matches ([skip]
    counts those still to be passed over) and counting resumes
    immediately after it. *)
Fixpoint count_skipping (delim s : cxx_string) (skip : nat) : nat :=
  match s with
  | [] => O
  | _ :: s' =>
      match skip with
      | S k => count_skipping delim s' k
      | O =>
          if starts_with delim s
          then S (count_skipping delim s' (Nat.pred (List.length delim)))
          else count_skipping delim s' O
      end
  end.

Definition count_occurrences (delim s : cxx_string) : nat :=
  count_skipping delim s O.

(** The positions [ps] are occurrences of [delim] in [s], listed from the
    left, none before [lo], and no two overlapping: each one starts at or
    after the end of the one before. *)
Fixpoint disjoint_occurrences (delim s : cxx_string) (lo : nat)
  (ps : list nat) : Prop :=
  match ps with
  | [] => True
  | p :: ps' =>
      (lo <= p)%nat /\ occurs_at delim s p
      /\ disjoint_occurrences delim s (p + List.length delim) ps'
  end.

(** ** Auxiliary notions for the proofs *)

(** No match of [delim] in [s] at the offsets below [k]. *)
Definition no_match_before (delim s : cxx_string) (k : nat) : Prop :=
  forall j, (j < k)%nat -> starts_with delim (skipn j s) = false.

(** No match of [delim] in [text] at the positions [lo <= p < hi]. *)
Definition no_match_between (text delim : cxx_string) (lo hi : nat) : Prop :=
  forall p, (lo <= p < hi)%nat -> starts_with delim (skipn p text) = false.

(** The segments pushed from search position [s] on, described by the
    positions of the matches: each segment runs from the search position
    to the first match [e] at or after it, the search resumes at
    [e + delim.size()], and the last segment is the rest of the text. *)
Inductive segments_from (text delim : cxx_string)
  : nat -> list cxx_string -> Prop :=
| segments_last s :
    (s <= List.length text)%nat ->
    no_match_between text delim s (S (List.length text)) ->
    segments_from text delim s [skipn s text]
| segments_next s e segs :
    (s <= e)%nat ->
    (e + List.length delim <= List.length text)%nat ->
    starts_with delim (skipn e text) = true ->
    no_match_between text delim s e ->
    segments_from text delim (e + List.length delim) segs ->
    segments_from text delim s (firstn (e - s) (skipn s text) :: segs).

(** Fuel that covers every call with a non-empty delimiter: a match
    advances [start] by [delimiter.length()], so the condition is
    evaluated at most [text.size() / delimiter.length() + 1] times. *)
Definition enough_fuel (text delim : cxx_string) (fuel : nat) : Prop :=
  (List.length text / List.length delim < fuel)%nat.

(** ** Facts about the library operations *)

Lemma size_nonneg (s : cxx_string) : 0 <= size s.
Proof. unfold size. lia. Qed.

Lemma npos_value : npos = 18446744073709551615.
Proof. reflexivity. Qed.

Lemma wrap_small (z : Z) : 0 <= z < npos -> wrap z = z.
Proof.
  intros Hz. unfold wrap. apply Z.mod_small.
  unfold npos in Hz. lia.
Qed.

Lemma starts_with_iff (p s : cxx_string) :
  starts_with p s = true <-> exists post, s = p ++ post.
Proof.
  revert s. induction p as [|a p IH]; intros s; simpl.
  - split; [intros _; now exists s | reflexivity].
  - destruct s as [|b s].
    + split; [discriminate | intros [post Hpost]; discriminate].
    + rewrite andb_true_iff, Ascii.eqb_eq, IH. split.
      * intros [-> [post ->]]. now exists post.
      * intros [post Hpost]. injection Hpost as -> ->. split; eauto.
Qed.

Lemma starts_with_length (p s : cxx_string) :
  starts_with p s = true -> (List.length p <= List.length s)%nat.
Proof.
  intros H. apply starts_with_iff in H as [post ->].
  rewrite length_app. lia.
Qed.

Lemma starts_with_skipn (p s : cxx_string) :
  starts_with p s = true -> s = p ++ skipn (List.length p) s.
Proof.
  intros H. apply starts_with_iff in H as [post ->].
  now rewrite skipn_app, skipn_all, Nat.sub_diag.
Qed.

Lemma skipn_skipn_add {A} (j k : nat) (l : list A) :
  skipn j (skipn k l) = skipn (k + j) l.
Proof. rewrite skipn_skipn. f_equal. lia. Qed.

(** [delim] occurs at offset [k] exactly when the comparison at [k]
    succeeds. *)
Lemma occurs_at_iff (delim s : cxx_string) (k : nat) :
  occurs_at delim s k <->
  (k <= List.length s)%nat /\ starts_with delim (skipn k s) = true.
Proof.
  unfold occurs_at. split.
  - intros (pre & post & -> & <-). split.
    + rewrite length_app. lia.
    + rewrite skipn_app, skipn_all, Nat.sub_diag. simpl.
      apply starts_with_iff. now exists post.
  - intros [Hk H]. apply starts_with_iff in H as [post Hpost].
    exists (firstn k s), post. split.
    + now rewrite <- Hpost, firstn_skipn.
    + apply firstn_length_le, Hk.
Qed.

Lemma contains_iff (delim s : cxx_string) :
  contains delim s = true <-> occurs_in delim s.
Proof.
  unfold contains, occurs_in. rewrite existsb_exists. split.
  - intros (k & Hin & Hm). exists k. apply occurs_at_iff.
    apply in_seq in Hin. split; [lia | exact Hm].
  - intros (k & Hk). apply occurs_at_iff in Hk as [Hk Hm].
    exists k. split; [apply in_seq; lia | exact Hm].
Qed.

Lemma contains_false (delim s : cxx_string) :
  contains delim s = false -> ~ occurs_in delim s.
Proof.
  intros Hc Ho. apply contains_iff in Ho. congruence.
Qed.

Section Scan.

Variables text delim : cxx_string.

(** What the scan returns: [npos] and no match at any offset, or the
    first offset with a match. *)
Lemma find_at_cases (s : cxx_string) (xpos : Z) :
  (find_at delim s xpos = npos /\ no_match_before delim s (S (List.length s)))
  \/ (exists k, (k <= List.length s)%nat
                /\ find_at delim s xpos = xpos + Z.of_nat k
                /\ starts_with delim (skipn k s) = true
                /\ no_match_before delim s k).
Proof.
  revert xpos. induction s as [|a s IH]; intros xpos; simpl find_at.
  - destruct (starts_with delim []) eqn:E.
    + right. exists O. simpl. repeat split; auto; try lia.
      intros j Hj. lia.
    + left. split; auto. intros j Hj. simpl in Hj.
      assert (j = O) by lia. now subst.
  - destruct (starts_with delim (a :: s)) eqn:E.
    + right. exists O. simpl. repeat split; auto; try lia.
      intros j Hj. lia.
    + destruct (IH (xpos + 1)) as [[Hn Hno] | (k & Hk & Hf & Hm & Hno)].
      * left. split; auto. intros [|j] Hj; simpl; auto.
        apply Hno. simpl in Hj. lia.
      * right. exists (S k). simpl. repeat split; auto; try lia.
        intros [|j] Hj; simpl; auto. apply Hno. lia.
Qed.

Hypothesis text_fits : size text < npos.

(** Specification of [find] at a position inside the text, with
    positions as naturals. *)
Lemma find_cases (s : nat) :
  (s <= List.length text)%nat ->
  (find text delim (Z.of_nat s) = npos
   /\ no_match_between text delim s (S (List.length text)))
  \/ (exists e, (s <= e)%nat
                /\ (e + List.length delim <= List.length text)%nat
                /\ find text delim (Z.of_nat s) = Z.of_nat e
                /\ starts_with delim (skipn e text) = true
                /\ no_match_between text delim s e).
Proof.
  intros Hs. unfold find.
  assert (Hlt : (size text <? Z.of_nat s) = false).
  { apply Z.ltb_ge. unfold size. lia. }
  rewrite Hlt, Nat2Z.id.
  destruct (find_at_cases (skipn s text) (Z.of_nat s))
    as [[Hn Hno] | (k & Hk & Hf & Hm & Hno)].
  - left. split; auto. intros p Hp.
    replace p with (s + (p - s))%nat by lia.
    rewrite <- skipn_skipn_add. apply Hno.
    rewrite length_skipn. lia.
  - right. exists (s + k)%nat.
    rewrite length_skipn in Hk.
    rewrite skipn_skipn_add in Hm.
    pose proof (starts_with_length _ _ Hm) as Hlen.
    rewrite length_skipn in Hlen.
    repeat split; auto; try lia.
    intros p Hp. replace p with (s + (p - s))%nat by lia.
    rewrite <- skipn_skipn_add. apply Hno. lia.
Qed.

(** A position returned by [find] inside the text is never [npos]. *)
Lemma position_not_npos (e : nat) :
  (e <= List.length text)%nat -> (Z.of_nat e =? npos) = false.
Proof.
  intros He. apply Z.eqb_neq. unfold size in text_fits. lia.
Qed.

(** [text.substr(s, n)] when no exception is raised and [n] is a
    [size_t]. *)
Lemma substr_inside (s : nat) (n : Z) :
  (s <= List.length text)%nat -> 0 <= n ->
  substr text (Z.of_nat s) n
  = Some (firstn (Z.to_nat n) (skipn s text)).
Proof.
  intros Hs Hn. unfold substr.
  assert (Hlt : (size text <? Z.of_nat s) = false).
  { apply Z.ltb_ge. unfold size. lia. }
  rewrite Hlt, Nat2Z.id. f_equal.
  destruct (Z.min_spec n (size text - Z.of_nat s)) as [[_ ->] | [Hle ->]];
    auto.
  rewrite !firstn_all2; auto; rewrite length_skipn; unfold size in *; lia.
Qed.

Lemma substr_tail (s : nat) :
  (s <= List.length text)%nat ->
  substr text (Z.of_nat s) npos = Some (skipn s text).
Proof.
  intros Hs. rewrite substr_inside; auto; [|unfold npos; simpl; lia].
  rewrite firstn_all2; auto.
  rewrite length_skipn. unfold size in text_fits. lia.
Qed.

End Scan.

(** ** The loop on a non-empty delimiter *)

Section Loop.

Variables text delim : cxx_string.
Hypothesis text_fits : size text < npos.
Hypothesis delim_nonempty : delim <> [].

Lemma delim_length_pos : (0 < List.length delim)%nat.
Proof. destruct delim; [contradiction | simpl; lia]. Qed.

(** One evaluation of the loop condition from a search position [s]
    inside the text: the loop is left when there is no match from [s]
    on; otherwise the text up to the first match [e] is pushed and the
    search position becomes [e + delim.size()].  No subtraction or
    addition wraps around and [substr] does not throw. *)
Lemma loop_step_cases (st : loop_state) (s : nat) :
  start st = Z.of_nat s -> (s <= List.length text)%nat ->
  (loop_step text delim st = Break st
   /\ no_match_between text delim s (S (List.length text)))
  \/ (exists e,
        (s <= e)%nat
        /\ (e + List.length delim <= List.length text)%nat
        /\ find text delim (start st) = Z.of_nat e
        /\ starts_with delim (skipn e text) = true
        /\ no_match_between text delim s e
        /\ loop_step text delim st
           = Continue {| result := result st
                                    ++ [firstn (e - s) (skipn s text)];
                         start := Z.of_nat (e + List.length delim) |}).
Proof.
  intros Hst Hs. unfold loop_step. rewrite Hst.
  destruct (find_cases text delim s Hs)
    as [[Hn Hno] | (e & Hse & Hel & Hf & Hm & Hno)].
  - left. rewrite Hn, Z.eqb_refl. auto.
  - right. exists e. rewrite Hf.
    rewrite (position_not_npos text text_fits e) by lia.
    assert (Hfit : Z.of_nat (List.length text) < npos) by exact text_fits.
    rewrite wrap_small by lia.
    rewrite (substr_inside text s) by lia.
    replace (Z.to_nat (Z.of_nat e - Z.of_nat s)) with (e - s)%nat by lia.
    unfold size at 1. rewrite wrap_small by lia.
    rewrite <- Nat2Z.inj_add. repeat split; auto.
Qed.

(** The fuel left after a match still covers the rest of the text. *)
Lemma fuel_after_match (s e fuel : nat) :
  (s <= e)%nat -> (e + List.length delim <= List.length text)%nat ->
  ((List.length text - s) / List.length delim < S fuel)%nat ->
  ((List.length text - (e + List.length delim)) / List.length delim
   < fuel)%nat.
Proof.
  intros Hse Hel Hfuel. pose proof delim_length_pos as Hd.
  set (d := List.length delim) in *. set (n := List.length text) in *.
  assert (Hq : ((n - (e + d)) / d + 1 <= (n - s) / d)%nat).
  { rewrite <- (Nat.div_add _ 1 d) by lia.
    apply Nat.Div0.div_le_mono. lia. }
  lia.
Qed.

(** With enough fuel the loop started in any state whose search
    position lies inside the text returns, having appended the segments
    described by [segments_from]. *)
Lemma run_loop_segments (fuel : nat) :
  forall (st : loop_state) (s : nat),
    start st = Z.of_nat s -> (s <= List.length text)%nat ->
    ((List.length text - s) / List.length delim < fuel)%nat ->
    exists segs,
      run_loop fuel text delim st = Returned (result st ++ segs)
      /\ segments_from text delim s segs.
Proof.
  induction fuel as [|fuel IH]; intros st s Hst Hs Hfuel; [lia|].
  simpl run_loop.
  destruct (loop_step_cases st s Hst Hs)
    as [[Hb Hno] | (e & Hse & Hel & _ & Hm & Hno & Hc)].
  - rewrite Hb. unfold finish. rewrite Hst, substr_tail by auto.
    exists [skipn s text]. split; auto. now constructor.
  - rewrite Hc.
    set (st' := {| result := result st ++ [firstn (e - s) (skipn s text)];
                   start := Z.of_nat (e + List.length delim) |}).
    destruct (IH st' (e + List.length delim)%nat eq_refl Hel
                (fuel_after_match s e fuel Hse Hel Hfuel))
      as (segs & Hrun & Hsegs).
    rewrite Hrun. simpl result. rewrite <- app_assoc. simpl.
    eexists. split; [reflexivity|].
    now apply segments_next.
Qed.

(** The call itself. *)
Lemma split_segments (fuel : nat) :
  enough_fuel text delim fuel ->
  exists segs,
    split_by_delimiter fuel text delim = Returned segs
    /\ segments_from text delim 0 segs.
Proof.
  intros Hfuel. unfold split_by_delimiter.
  destruct (run_loop_segments fuel initial_state O) as (segs & Hrun & Hs);
    auto; try lia.
  - unfold enough_fuel in Hfuel. now rewrite Nat.sub_0_r.
  - exists segs. split; auto.
Qed.

End Loop.

(** ** Properties of the segments *)

Section Segments.

Variables text delim : cxx_string.
Hypothesis delim_nonempty : delim <> [].

Lemma segments_from_nonempty (s : nat) (segs : list cxx_string) :
  segments_from text delim s segs -> segs <> [].
Proof. intros H; inversion H; discriminate. Qed.

Lemma segments_from_inside (s : nat) (segs : list cxx_string) :
  segments_from text delim s segs -> (s <= List.length text)%nat.
Proof. intros H; inversion H; lia. Qed.

(** Joining the segments gives back the text from [s] on. *)
Lemma segments_from_join (s : nat) (segs : list cxx_string) :
  segments_from text delim s segs -> join segs delim = skipn s text.
Proof.
  induction 1 as [s Hs Hno | s e segs Hse Hel Hm Hno Hsegs IH].
  - reflexivity.
  - pose proof (segments_from_nonempty _ _ Hsegs) as Hne.
    destruct segs as [|seg segs]; [contradiction|].
    change (firstn (e - s) (skipn s text)
            ++ delim ++ join (seg :: segs) delim = skipn s text).
    rewrite IH.
    rewrite <- (firstn_skipn (e - s) (skipn s text)) at 2.
    f_equal. rewrite skipn_skipn_add.
    replace (s + (e - s))%nat with e by lia.
    rewrite <- skipn_skipn_add. symmetry. now apply starts_with_skipn.
Qed.

(** Counting passes over a stretch without a match. *)
Lemma count_skipping_no_match (j : nat) :
  forall u, (j <= List.length u)%nat -> no_match_before delim u j ->
            count_skipping delim u 0 = count_skipping delim (skipn j u) 0.
Proof.
  induction j as [|j IH]; intros u Hj Hno; [reflexivity|].
  destruct u as [|a u]; [simpl in Hj; lia|].
  simpl skipn. rewrite <- IH.
  - pose proof (Hno O ltac:(lia)) as H0. simpl in H0.
    simpl. now rewrite H0.
  - simpl in Hj. lia.
  - intros i Hi. apply (Hno (S i)). lia.
Qed.

(** Counting with [k] characters still to pass over. *)
Lemma count_skipping_skipn (u : cxx_string) :
  forall k, (k <= List.length u)%nat ->
            count_skipping delim u k = count_skipping delim (skipn k u) 0.
Proof.
  induction u as [|a u IH]; intros [|k] Hk; try reflexivity.
  simpl in *. apply IH. lia.
Qed.

(** Counting at a match: one occurrence, then the text after it. *)
Lemma count_skipping_match (u : cxx_string) :
  starts_with delim u = true ->
  count_skipping delim u 0
  = S (count_skipping delim (skipn (List.length delim) u) 0).
Proof.
  intros Hm. pose proof (starts_with_length _ _ Hm) as Hlen.
  destruct delim as [|c d] eqn:Ed; [contradiction|]. rewrite <- Ed in *.
  destruct u as [|a u]; [rewrite Ed in Hlen; simpl in Hlen; lia|].
  simpl count_skipping. rewrite Hm. f_equal.
  rewrite count_skipping_skipn.
  - rewrite Ed. reflexivity.
  - rewrite Ed in *. simpl in *. lia.
Qed.

Lemma no_match_between_before (s e : nat) :
  no_match_between text delim s e ->
  no_match_before delim (skipn s text) (e - s).
Proof.
  intros Hno j Hj. rewrite skipn_skipn_add. apply Hno. lia.
Qed.

(** One segment more than occurrences counted from [s] on. *)
Lemma segments_from_count (s : nat) (segs : list cxx_string) :
  segments_from text delim s segs ->
  List.length segs = S (count_occurrences delim (skipn s text)).
Proof.
  unfold count_occurrences.
  induction 1 as [s Hs Hno | s e segs Hse Hel Hm Hno Hsegs IH].
  - simpl. f_equal. symmetry.
    rewrite (count_skipping_no_match (List.length text - s)).
    + rewrite skipn_skipn_add, skipn_all2 by lia. reflexivity.
    + rewrite length_skipn. lia.
    + intros j Hj. rewrite skipn_skipn_add. apply Hno. lia.
  - simpl List.length. rewrite IH. f_equal. symmetry.
    rewrite (count_skipping_no_match (e - s)).
    + rewrite skipn_skipn_add. replace (s + (e - s))%nat with e by lia.
      rewrite count_skipping_match by assumption.
      now rewrite skipn_skipn_add.
    + rewrite length_skipn. lia.
    + now apply no_match_between_before.
Qed.

(** No segment contains the delimiter. *)
Lemma segments_from_clean (s : nat) (segs : list cxx_string) :
  segments_from text delim s segs ->
  Forall (fun seg => ~ occurs_in delim seg) segs.
Proof.
  induction 1 as [s Hs Hno | s e segs Hse Hel Hm Hno Hsegs IH].
  - constructor; [|constructor]. intros [k Hk].
    apply occurs_at_iff in Hk as [Hk Hmk].
    rewrite length_skipn in Hk. rewrite skipn_skipn_add in Hmk.
    rewrite Hno in Hmk by lia. discriminate.
  - constructor; [|exact IH]. intros (k & pre & post & Hseg & Hpre).
    assert (Hlen : (k + List.length delim <= e - s)%nat).
    { pose proof (f_equal (@List.length _) Hseg) as HL.
      rewrite !length_app, length_firstn in HL. lia. }
    assert (Hocc : occurs_at delim (skipn s text) k).
    { exists pre, (post ++ skipn (e - s) (skipn s text)). split; auto.
      rewrite <- (firstn_skipn (e - s) (skipn s text)) at 1.
      rewrite Hseg, <- !app_assoc. reflexivity. }
    apply occurs_at_iff in Hocc as [_ Hmk].
    rewrite skipn_skipn_add in Hmk.
    assert (Hd : (0 < List.length delim)%nat)
      by (destruct delim; [contradiction | simpl; lia]).
    rewrite Hno in Hmk by lia. discriminate.
Qed.

(** Without any occurrence the text is the only segment. *)
Lemma segments_from_no_occurrence (segs : list cxx_string) :
  ~ occurs_in delim text ->
  segments_from text delim 0 segs -> segs = [text].
Proof.
  intros Hno H. inversion H as [s Hs _ | s e segs' _ Hel Hm _ _]; subst.
  - reflexivity.
  - exfalso. apply Hno. exists e. apply occurs_at_iff. split; [lia|auto].
Qed.

End Segments.

(** ** Fuel *)

(** More fuel does not change the outcome of a run that ended. *)
Lemma run_loop_more_fuel (text delim : cxx_string) (f : nat) :
  forall (f' : nat) (st : loop_state),
    (f <= f')%nat ->
    run_loop f text delim st <> OutOfFuel ->
    run_loop f' text delim st = run_loop f text delim st.
Proof.
  induction f as [|f IH]; intros f' st Hle Hend; [now elim Hend|].
  destruct f' as [|f']; [lia|]. simpl in *.
  destruct (loop_step text delim st); auto. apply IH; [lia|auto].
Qed.

(** ** The count of non-overlapping occurrences is the largest one *)

Section Counting.

Variable delim : cxx_string.
Hypothesis delim_nonempty : delim <> [].

Lemma occurs_at_cons (a : ascii) (s : cxx_string) (p : nat) :
  occurs_at delim (a :: s) (S p) <-> occurs_at delim s p.
Proof. rewrite !occurs_at_iff. simpl. intuition lia. Qed.

Lemma occurs_at_head (s : cxx_string) :
  occurs_at delim s 0 <-> starts_with delim s = true.
Proof. rewrite occurs_at_iff. simpl. intuition lia. Qed.

Lemma disjoint_occurrences_weaken (s : cxx_string) (lo lo' : nat)
  (ps : list nat) :
  (lo' <= lo)%nat ->
  disjoint_occurrences delim s lo ps ->
  disjoint_occurrences delim s lo' ps.
Proof.
  destruct ps as [|p ps]; simpl; auto.
  intros Hle (Hp & Ho & Hrest). repeat split; auto. lia.
Qed.

(** Dropping the first character of the text moves every position one
    to the left. *)
Lemma disjoint_occurrences_tail (a : ascii) (s : cxx_string)
  (ps : list nat) :
  forall lo,
    disjoint_occurrences delim (a :: s) (S lo) ps ->
    disjoint_occurrences delim s lo (map Nat.pred ps).
Proof.
  induction ps as [|p ps IH]; intros lo; simpl; auto.
  intros (Hp & Ho & Hrest). destruct p as [|p]; [lia|].
  apply occurs_at_cons in Ho. simpl.
  split; [lia | split; [exact Ho | apply IH; exact Hrest]].
Qed.

Lemma disjoint_occurrences_cons (a : ascii) (s : cxx_string)
  (ps : list nat) :
  forall lo,
    disjoint_occurrences delim s lo ps ->
    disjoint_occurrences delim (a :: s) (S lo) (map S ps).
Proof.
  induction ps as [|p ps IH]; intros lo; simpl; auto.
  intros (Hp & Ho & Hrest). apply occurs_at_cons with (a := a) in Ho.
  split; [lia | split; [exact Ho |]].
  apply (IH (p + List.length delim)%nat). exact Hrest.
Qed.

(** No family of pairwise non-overlapping occurrences is larger than
    the count. *)
Lemma count_skipping_upper (s : cxx_string) :
  forall k ps,
    disjoint_occurrences delim s k ps ->
    (List.length ps <= count_skipping delim s k)%nat.
Proof.
  pose proof (delim_length_pos delim delim_nonempty) as Hd.
  induction s as [|a s IH]; intros k ps Hps.
  - destruct ps as [|p ps]; [simpl; lia|].
    destruct Hps as (_ & Ho & _). apply occurs_at_iff in Ho as [_ Hm].
    apply starts_with_length in Hm. rewrite length_skipn in Hm.
    simpl in Hm. lia.
  - destruct k as [|k]; simpl count_skipping.
    + destruct (starts_with delim (a :: s)) eqn:E.
      * destruct ps as [|p ps]; [simpl; lia|].
        destruct Hps as (_ & _ & Hrest). simpl List.length.
        apply le_n_S. rewrite <- (length_map Nat.pred).
        apply IH, (disjoint_occurrences_tail a).
        apply disjoint_occurrences_weaken
          with (lo := (p + List.length delim)%nat); [lia | exact Hrest].
      * rewrite <- (length_map Nat.pred).
        apply IH, (disjoint_occurrences_tail a).
        destruct ps as [|p ps]; simpl; auto.
        destruct Hps as (_ & Ho & Hrest). repeat split; auto.
        destruct p as [|p]; [|lia].
        apply occurs_at_head in Ho. congruence.
    + rewrite <- (length_map Nat.pred).
      apply IH, (disjoint_occurrences_tail a), Hps.
Qed.

(** The count is reached by a family of pairwise non-overlapping
    occurrences. *)
Lemma count_skipping_reached (s : cxx_string) :
  forall k,
    exists ps,
      disjoint_occurrences delim s k ps
      /\ List.length ps = count_skipping delim s k.
Proof.
  pose proof (delim_length_pos delim delim_nonempty) as Hd.
  induction s as [|a s IH]; intros k.
  - now exists [].
  - destruct k as [|k]; simpl count_skipping.
    + destruct (starts_with delim (a :: s)) eqn:E.
      * destruct (IH (Nat.pred (List.length delim))) as (ps & Hps & Hl).
        exists (O :: map S ps). simpl. rewrite length_map, Hl.
        repeat split; auto.
        -- now apply occurs_at_head.
        -- replace (List.length delim)
             with (S (Nat.pred (List.length delim))) at 1 by lia.
           now apply disjoint_occurrences_cons.
      * destruct (IH O) as (ps & Hps & Hl).
        exists (map S ps). rewrite length_map, Hl. split; auto.
        apply disjoint_occurrences_weaken with (lo := 1%nat); [lia|].
        now apply disjoint_occurrences_cons.
    + destruct (IH k) as (ps & Hps & Hl).
      exists (map S ps). rewrite length_map, Hl. split; auto.
      now apply disjoint_occurrences_cons.
Qed.

(** [count_occurrences] is the largest number of pairwise
    non-overlapping occurrences of the delimiter in the text. *)
Lemma count_occurrences_maximum (s : cxx_string) :
  (exists ps, disjoint_occurrences delim s 0 ps
              /\ List.length ps = count_occurrences delim s)
  /\ (forall ps, disjoint_occurrences delim s 0 ps ->
                 (List.length ps <= count_occurrences delim s)%nat).
Proof.
  split; [apply count_skipping_reached | apply count_skipping_upper].
Qed.

End Counting.

(** ** States met during a call *)

(** Every state in which the loop condition is evaluated has its search
    position inside the text. *)
Lemma reachable_inside (text delim : cxx_string) (st : loop_state) :
  size text < npos ->
  reachable text delim st ->
  exists s, start st = Z.of_nat s /\ (s <= List.length text)%nat.
Proof.
  intros Hfit. induction 1 as [|st st' Hreach (s & Hst & Hs) Hstep].
  - exists O. split; [reflexivity | lia].
  - destruct (loop_step_cases text delim Hfit st s Hst Hs)
      as [[Hb _] | (e & _ & Hel & _ & _ & _ & Hc)].
    + rewrite Hb in Hstep. discriminate.
    + rewrite Hc in Hstep. injection Hstep as <-.
      exists (e + List.length delim)%nat. split; [reflexivity | exact Hel].
Qed.

(** What an iteration of the body does to the search position: [find]
    gave the first match [e] at or after [start], which is a literal
    occurrence of the delimiter, the text between [start] and [e] was
    pushed, and the search resumes at [e + delimiter.length()]. *)
Lemma reachable_step (text delim : cxx_string) (st st' : loop_state) :
  size text < npos ->
  reachable text delim st ->
  loop_step text delim st = Continue st' ->
  exists s e : nat,
    start st = Z.of_nat s
    /\ find text delim (start st) = Z.of_nat e
    /\ (s <= e)%nat
    /\ occurs_at delim text e
    /\ no_match_between text delim s e
    /\ result st' = result st ++ [firstn (e - s) (skipn s text)]
    /\ start st' = Z.of_nat e + size delim
    /\ start st' <= size text.
Proof.
  intros Hfit Hreach Hstep.
  destruct (reachable_inside text delim st Hfit Hreach) as (s & Hst & Hs).
  destruct (loop_step_cases text delim Hfit st s Hst Hs)
    as [[Hb _] | (e & Hse & Hel & Hf & Hm & Hno & Hc)].
  - rewrite Hb in Hstep. discriminate.
  - rewrite Hc in Hstep. injection Hstep as <-.
    exists s, e. simpl. unfold size. repeat split; auto; try lia.
    apply occurs_at_iff. split; [lia | exact Hm].
Qed.

(** ** The empty delimiter *)

(** With an empty delimiter [find] succeeds at position [0] without
    consuming anything: the body pushes an empty segment and leaves
    [start] at [0]. *)
Lemma loop_step_empty_delimiter (text : cxx_string)
  (res : list cxx_string) :
  loop_step text [] {| result := res; start := 0 |}
  = Continue {| result := res ++ [[]]; start := 0 |}.
Proof.
  unfold loop_step, find, substr. simpl start.
  assert (Hlt : (size text <? 0) = false).
  { apply Z.ltb_ge, size_nonneg. }
  assert (Hfind : forall s, find_at [] s 0 = 0) by (now intros [|c s]).
  rewrite Hlt, Hfind. simpl.
  change (wrap 0) with 0. change (wrap (size [])) with 0.
  replace (Z.min 0 (size text - 0)) with 0
    by (pose proof (size_nonneg text); lia).
  reflexivity.
Qed.

Lemma run_loop_empty_delimiter (text : cxx_string) (fuel : nat) :
  forall res,
    run_loop fuel text [] {| result := res; start := 0 |} = OutOfFuel.
Proof.
  induction fuel as [|fuel IH]; intros res; [reflexivity|].
  simpl run_loop. rewrite loop_step_empty_delimiter. apply IH.
Qed.

Lemma reachable_empty_delimiter (text : cxx_string) (st : loop_state) :
  reachable text [] st ->
  exists n, st = {| result := repeat [] n; start := 0 |}.
Proof.
  induction 1 as [|st st' _ [n ->] Hstep].
  - now exists O.
  - rewrite loop_step_empty_delimiter in Hstep. injection Hstep as <-.
    exists (S n). f_equal. now rewrite <- repeat_cons.
Qed.

(** ** Concrete runs *)

Example split_csv :
  split_by_delimiter 3 (str "a,b,c") (str ",")
  = Returned [str "a"; str "b"; str "c"].
Proof. reflexivity. Qed.

Example split_csv_short_of_fuel :
  split_by_delimiter 2 (str "a,b,c") (str ",") = OutOfFuel.
Proof. reflexivity. Qed.

Example find_second_comma :
  find (str "a,b,c") (str ",") 2 = 3 /\ find (str "a,b,c") (str ",") 4 = npos.
Proof. split; reflexivity. Qed.

Example substr_past_the_end :
  substr (str "abc") 4 npos = None /\ substr (str "abc") 3 npos = Some [].
Proof. split; reflexivity. Qed.

Example count_overlapping_candidates :
  count_occurrences (str "aa") (str "aaaaa") = 2%nat.
Proof. reflexivity. Qed.

Example split_empty_delimiter_stuck :
  split_by_delimiter 50 (str "abc") (str "") = OutOfFuel.
Proof. reflexivity. Qed.

(** ** The properties of the specification

    The hypothesis [size text < npos] holds of every [std::string]:
    [size() <= max_size() < npos].  Under it no [size_t] operation of the
    function wraps around and [npos] is never a position of the text. *)

(** C1, round-trip law: for every text (of a length a [std::string] can
    have) and every non-empty delimiter, the call returns, and joining the
    returned segments with the delimiter between consecutive ones gives
    back the text exactly. *)
Theorem split_join_roundtrip (text delim : cxx_string) (fuel : nat) :
  delim <> [] -> size text < npos -> enough_fuel text delim fuel ->
  exists segs,
    split_by_delimiter fuel text delim = Returned segs
    /\ join segs delim = text.
Proof.
  intros Hd Hfit Hfuel.
  destruct (split_segments text delim Hfit Hd fuel Hfuel) as (segs & Hr & Hs).
  exists segs. split; [exact Hr|].
  now rewrite (segments_from_join text delim 0 segs Hs).
Qed.

Lemma split_join_roundtrip_witness :
  exists segs,
    split_by_delimiter 4 (str "a,b") (str ",") = Returned segs
    /\ join segs (str ",") = str "a,b".
Proof.
  apply (split_join_roundtrip (str "a,b") (str ",") 4).
  - discriminate.
  - reflexivity.
  - unfold enough_fuel. simpl. lia.
Defined.

(** C2, segment count law: for every text and every non-empty delimiter,
    the call returns one segment more than there are non-overlapping
    occurrences of the delimiter in the text. *)
Theorem split_segment_count (text delim : cxx_string) (fuel : nat) :
  delim <> [] -> size text < npos -> enough_fuel text delim fuel ->
  exists segs,
    split_by_delimiter fuel text delim = Returned segs
    /\ List.length segs = (1 + count_occurrences delim text)%nat.
Proof.
  intros Hd Hfit Hfuel.
  destruct (split_segments text delim Hfit Hd fuel Hfuel) as (segs & Hr & Hs).
  exists segs. split; [exact Hr|].
  now rewrite (segments_from_count text delim Hd 0 segs Hs).
Qed.

Lemma split_segment_count_witness :
  exists segs,
    split_by_delimiter 6 (str "a,,b,") (str ",") = Returned segs
    /\ List.length segs
       = (1 + count_occurrences (str ",") (str "a,,b,"))%nat.
Proof.
  apply (split_segment_count (str "a,,b,") (str ",") 6).
  - discriminate.
  - reflexivity.
  - unfold enough_fuel. simpl. lia.
Defined.

(** C3, termination: for every text and every non-empty delimiter, each
    iteration of the loop body moves the search position forward by the
    length of the delimiter, which is at least one, and never past the end
    of the text; so the call returns once the fuel exceeds
    [text.size() / delimiter.length()] evaluations of the condition. *)
Theorem split_terminates (text delim : cxx_string) :
  delim <> [] -> size text < npos ->
  (forall st st',
      reachable text delim st ->
      loop_step text delim st = Continue st' ->
      1 <= size delim
      /\ start st + size delim <= start st' <= size text)
  /\ (forall fuel,
         (List.length text / List.length delim < fuel)%nat ->
         exists segs, split_by_delimiter fuel text delim = Returned segs).
Proof.
  intros Hd Hfit. split.
  - intros st st' Hreach Hstep.
    destruct (reachable_step text delim st st' Hfit Hreach Hstep)
      as (s & e & Hst & _ & Hse & _ & _ & _ & Hst' & Hin).
    pose proof (delim_length_pos delim Hd). unfold size in *. lia.
  - intros fuel Hfuel.
    destruct (split_segments text delim Hfit Hd fuel Hfuel)
      as (segs & Hr & _).
    now exists segs.
Qed.

Lemma split_terminates_witness :
  exists segs,
    split_by_delimiter 4 (str "a::b::c") (str "::") = Returned segs.
Proof.
  refine (proj2 (split_terminates (str "a::b::c") (str "::") _ _) 4%nat _).
  - discriminate.
  - reflexivity.
  - vm_compute. lia.
Defined.

(** C4, empty delimiter: the code has no guard.  For every text, an empty
    delimiter is found at position [0] again and again: in every state of
    the call the body pushes one more empty segment and leaves the search
    position at [0], and no amount of fuel makes the call return or
    throw.  None of the three policies of the specification is
    implemented. *)
Theorem split_empty_delimiter_degenerate (text : cxx_string) :
  (forall fuel, split_by_delimiter fuel text [] = OutOfFuel)
  /\ (forall st,
         reachable text [] st ->
         start st = 0
         /\ loop_step text [] st
            = Continue {| result := result st ++ [[]]; start := 0 |}).
Proof.
  split.
  - intros fuel. apply run_loop_empty_delimiter.
  - intros st Hreach.
    destruct (reachable_empty_delimiter text st Hreach) as [n ->].
    split; [reflexivity|]. apply loop_step_empty_delimiter.
Qed.

(** C5, no-delimiter case: for every text and every non-empty delimiter
    that does not occur in the text, the call returns the one-element
    sequence holding the text itself (a single evaluation of the loop
    condition is enough). *)
Theorem split_no_delimiter (text delim : cxx_string) (fuel : nat) :
  delim <> [] -> size text < npos -> ~ occurs_in delim text ->
  (0 < fuel)%nat ->
  split_by_delimiter fuel text delim = Returned [text].
Proof.
  intros Hd Hfit Hno Hfuel. destruct fuel as [|fuel]; [lia|].
  unfold split_by_delimiter. simpl run_loop.
  destruct (loop_step_cases text delim Hfit initial_state O eq_refl)
    as [[Hb _] | (e & _ & Hel & _ & Hm & _ & _)]; [lia | |].
  - rewrite Hb. unfold finish. simpl start.
    change 0 with (Z.of_nat 0). rewrite substr_tail by (auto; lia).
    reflexivity.
  - exfalso. apply Hno. exists e. apply occurs_at_iff. split; [lia|auto].
Qed.

Lemma split_no_delimiter_witness :
  split_by_delimiter 1 (str "abc") (str ",") = Returned [str "abc"].
Proof.
  apply (split_no_delimiter (str "abc") (str ",") 1).
  - discriminate.
  - reflexivity.
  - apply contains_false. reflexivity.
  - lia.
Defined.

(** C6, non-empty output: for every text and every non-empty delimiter the
    call returns at least one segment; and on the empty text with the
    delimiter [","] it returns the one-element sequence holding the empty
    string. *)
Theorem split_output_nonempty :
  (forall text delim fuel,
      delim <> [] -> size text < npos -> enough_fuel text delim fuel ->
      exists segs,
        split_by_delimiter fuel text delim = Returned segs
        /\ (1 <= List.length segs)%nat)
  /\ (forall fuel,
         split_by_delimiter (1 + fuel) (str "") (str ",")
         = Returned [str ""]).
Proof.
  split.
  - intros text delim fuel Hd Hfit Hfuel.
    destruct (split_segments text delim Hfit Hd fuel Hfuel)
      as (segs & Hr & Hs).
    exists segs. split; [exact Hr|].
    pose proof (segments_from_nonempty text delim 0 segs Hs).
    destruct segs; [contradiction | simpl; lia].
  - intros fuel. reflexivity.
Qed.

Lemma split_output_nonempty_witness :
  exists segs,
    split_by_delimiter 1 (str "") (str ",") = Returned segs
    /\ (1 <= List.length segs)%nat.
Proof.
  refine (proj1 split_output_nonempty (str "") (str ",") 1%nat _ _ _).
  - discriminate.
  - reflexivity.
  - vm_compute. lia.
Defined.

(** C7, empty segments are kept everywhere: ["a,,b"] split on [","] gives
    ["a"], [""], ["b"], and [",a,"] split on [","] gives [""], ["a"],
    [""], for every fuel that covers the three evaluations of the loop
    condition. *)
Theorem split_keeps_empty_segments (fuel : nat) :
  split_by_delimiter (3 + fuel) (str "a,,b") (str ",")
  = Returned [str "a"; str ""; str "b"]
  /\ split_by_delimiter (3 + fuel) (str ",a,") (str ",")
     = Returned [str ""; str "a"; str ""].
Proof.
  unfold split_by_delimiter. split.
  - rewrite (run_loop_more_fuel _ _ 3); [reflexivity | lia | discriminate].
  - rewrite (run_loop_more_fuel _ _ 3); [reflexivity | lia | discriminate].
Qed.

(** C8, literal, left-to-right, non-overlapping matching: for every text
    and every non-empty delimiter, an iteration of the body in any state
    of the call works on the first position [e] at or after the search
    position where the delimiter occurs literally, pushes the text in
    between, and resumes the search at [e + delimiter.length()], which is
    past [e].  In particular ["a::b::c"] split on ["::"] gives ["a"],
    ["b"], ["c"], and ["aaa"] split on ["aa"] gives [""], ["a"]: one
    occurrence only. *)
Theorem split_matches_left_to_right :
  (forall text delim st st',
      delim <> [] -> size text < npos ->
      reachable text delim st ->
      loop_step text delim st = Continue st' ->
      exists s e : nat,
        start st = Z.of_nat s
        /\ find text delim (start st) = Z.of_nat e
        /\ (s <= e)%nat
        /\ occurs_at delim text e
        /\ no_match_between text delim s e
        /\ result st' = result st ++ [firstn (e - s) (skipn s text)]
        /\ start st' = Z.of_nat e + size delim
        /\ Z.of_nat e < start st')
  /\ (forall fuel,
         split_by_delimiter (3 + fuel) (str "a::b::c") (str "::")
         = Returned [str "a"; str "b"; str "c"])
  /\ (forall fuel,
         split_by_delimiter (2 + fuel) (str "aaa") (str "aa")
         = Returned [str ""; str "a"]).
Proof.
  split; [|split].
  - intros text delim st st' Hd Hfit Hreach Hstep.
    destruct (reachable_step text delim st st' Hfit Hreach Hstep)
      as (s & e & Hst & Hf & Hse & Hocc & Hno & Hres & Hst' & _).
    exists s, e. repeat split; auto; try apply Hno.
    pose proof (delim_length_pos delim Hd). unfold size in *. lia.
  - intros fuel. unfold split_by_delimiter.
    rewrite (run_loop_more_fuel _ _ 3); [reflexivity | lia | discriminate].
  - intros fuel. unfold split_by_delimiter.
    rewrite (run_loop_more_fuel _ _ 2); [reflexivity | lia | discriminate].
Qed.

Lemma split_matches_left_to_right_witness :
  exists s e : nat,
    start initial_state = Z.of_nat s
    /\ find (str "aaa") (str "aa") (start initial_state) = Z.of_nat e
    /\ (s <= e)%nat
    /\ occurs_at (str "aa") (str "aaa") e
    /\ no_match_between (str "aaa") (str "aa") s e
    /\ result {| result := [str ""]; start := 2 |}
       = result initial_state ++ [firstn (e - s) (skipn s (str "aaa"))]
    /\ start {| result := [str ""]; start := 2 |}
       = Z.of_nat e + size (str "aa")
    /\ Z.of_nat e < start {| result := [str ""]; start := 2 |}.
Proof.
  refine (proj1 split_matches_left_to_right (str "aaa") (str "aa")
            initial_state {| result := [str ""]; start := 2 |} _ _ _ _).
  - discriminate.
  - reflexivity.
  - constructor.
  - reflexivity.
Defined.

(** C10, no segment contains the delimiter: for every text and every
    non-empty delimiter, the call returns, and the delimiter is not a
    substring of any returned segment. *)
Theorem split_segments_clean (text delim : cxx_string) (fuel : nat) :
  delim <> [] -> size text < npos -> enough_fuel text delim fuel ->
  exists segs,
    split_by_delimiter fuel text delim = Returned segs
    /\ Forall (fun seg => ~ occurs_in delim seg) segs.
Proof.
  intros Hd Hfit Hfuel.
  destruct (split_segments text delim Hfit Hd fuel Hfuel) as (segs & Hr & Hs).
  exists segs. split; [exact Hr|].
  exact (segments_from_clean text delim Hd 0 segs Hs).
Qed.

Lemma split_segments_clean_witness :
  exists segs,
    split_by_delimiter 4 (str "aaa") (str "aa") = Returned segs
    /\ Forall (fun seg => ~ occurs_in (str "aa") seg) segs.
Proof.
  apply (split_segments_clean (str "aaa") (str "aa") 4).
  - discriminate.
  - reflexivity.
  - vm_compute. lia.
Defined.


(** ** Further properties of the loop

    The lemmas below describe the run exactly: which step the loop takes
    in a state, how many evaluations of the condition a call needs, and
    how runs on a text and on one of its suffixes correspond. *)

Lemma firstn_segment {A} (s e : nat) (l : list A) :
  (s <= e)%nat -> firstn s l ++ firstn (e - s) (skipn s l) = firstn e l.
Proof.
  intros Hse. rewrite <- (firstn_skipn s (firstn e l)).
  rewrite firstn_firstn, Nat.min_l by lia. f_equal.
  rewrite firstn_skipn_comm. do 2 f_equal. lia.
Qed.

(** The loop is left exactly when no match remains. *)
Lemma loop_step_last (text delim : cxx_string) (st : loop_state) (s : nat) :
  size text < npos ->
  start st = Z.of_nat s -> (s <= List.length text)%nat ->
  no_match_between text delim s (S (List.length text)) ->
  loop_step text delim st = Break st.
Proof.
  intros Hfit Hst Hs Hno.
  destruct (loop_step_cases text delim Hfit st s Hst Hs)
    as [[Hb _] | (e & Hse & Hel & _ & Hm & _ & _)]; [exact Hb|].
  rewrite Hno in Hm by lia. discriminate.
Qed.

(** The body works on the first match, whichever way it was found. *)
Lemma loop_step_next (text delim : cxx_string) (st : loop_state)
  (s e : nat) :
  size text < npos ->
  start st = Z.of_nat s -> (s <= e)%nat ->
  (e + List.length delim <= List.length text)%nat ->
  starts_with delim (skipn e text) = true ->
  no_match_between text delim s e ->
  loop_step text delim st
  = Continue {| result := result st ++ [firstn (e - s) (skipn s text)];
                start := Z.of_nat (e + List.length delim) |}.
Proof.
  intros Hfit Hst Hse Hel Hm Hno.
  destruct (loop_step_cases text delim Hfit st s Hst ltac:(lia))
    as [[_ Hnone] | (e' & Hse' & Hel' & _ & Hm' & Hno' & Hc)].
  - rewrite Hnone in Hm by lia. discriminate.
  - assert (e' = e) as ->; [|exact Hc].
    destruct (Nat.lt_trichotomy e' e) as [Hlt | [Heq | Hgt]]; auto.
    + rewrite Hno in Hm' by lia. discriminate.
    + rewrite Hno' in Hm by lia. discriminate.
Qed.

(** A run from search position [s] returns the segments described by
    [segments_from] as soon as the fuel covers one evaluation of the
    condition per segment, and not before. *)
Lemma run_loop_exact (text delim : cxx_string) (s : nat)
  (segs : list cxx_string) :
  size text < npos ->
  segments_from text delim s segs ->
  forall fuel st,
    start st = Z.of_nat s ->
    run_loop fuel text delim st
    = if (List.length segs <=? fuel)%nat
      then Returned (result st ++ segs) else OutOfFuel.
Proof.
  intros Hfit.
  induction 1 as [s Hs Hno | s e segs Hse Hel Hm Hno Hsegs IH];
    intros [|fuel] st Hst; try reflexivity.
  - simpl run_loop. rewrite (loop_step_last text delim st s) by auto.
    unfold finish. rewrite Hst, substr_tail by auto. reflexivity.
  - simpl run_loop. rewrite (loop_step_next text delim st s e) by auto.
    rewrite IH by reflexivity. simpl List.length. simpl result.
    change (S (List.length segs) <=? S fuel)%nat
      with (List.length segs <=? fuel)%nat.
    now rewrite <- app_assoc.
Qed.

(** From every position inside the text there are segments to push. *)
Lemma segments_from_exists (text delim : cxx_string) (s : nat) :
  delim <> [] -> size text < npos -> (s <= List.length text)%nat ->
  exists segs, segments_from text delim s segs.
Proof.
  intros Hd Hfit Hs.
  destruct (run_loop_segments text delim Hfit Hd (S (List.length text))
              {| result := []; start := Z.of_nat s |} s eq_refl Hs)
    as (segs & _ & Hsegs).
  - apply Nat.lt_succ_r. etransitivity.
    + apply Nat.Div0.div_le_upper_bound with (q := (List.length text - s)%nat).
      pose proof (delim_length_pos delim Hd). nia.
    + lia.
  - now exists segs.
Qed.

(** The call returns [segs] exactly when [segs] are the segments from
    position [0] and the fuel covers them. *)
Lemma split_returned_iff (text delim : cxx_string) (fuel : nat)
  (segs : list cxx_string) :
  delim <> [] -> size text < npos ->
  split_by_delimiter fuel text delim = Returned segs
  <-> segments_from text delim 0 segs /\ (List.length segs <= fuel)%nat.
Proof.
  intros Hd Hfit. unfold split_by_delimiter. split.
  - intros Hrun.
    destruct (segments_from_exists text delim 0 Hd Hfit ltac:(lia))
      as (segs0 & Hsegs0).
    rewrite (run_loop_exact text delim 0 segs0 Hfit Hsegs0) in Hrun
      by reflexivity.
    destruct (List.length segs0 <=? fuel)%nat eqn:E; [|discriminate].
    simpl in Hrun. injection Hrun as <-.
    split; [exact Hsegs0 | now apply Nat.leb_le].
  - intros [Hsegs Hlen].
    rewrite (run_loop_exact text delim 0 segs Hfit Hsegs) by reflexivity.
    apply Nat.leb_le in Hlen. now rewrite Hlen.
Qed.

(** The segments of a suffix of the text are the segments of the text
    from the position where the suffix begins. *)
Lemma segments_from_suffix (text delim : cxx_string) (k s : nat)
  (segs : list cxx_string) :
  (k <= List.length text)%nat ->
  segments_from (skipn k text) delim s segs ->
  segments_from text delim (k + s) segs.
Proof.
  intros Hk.
  induction 1 as [s Hs Hno | s e segs Hse Hel Hm Hno Hsegs IH];
    rewrite length_skipn in *.
  - rewrite skipn_skipn_add. apply segments_last; [lia|].
    intros p Hp. replace p with (k + (p - k))%nat by lia.
    rewrite <- skipn_skipn_add. apply Hno. lia.
  - rewrite skipn_skipn_add.
    replace (e - s)%nat with (k + e - (k + s))%nat by lia.
    apply segments_next; try lia.
    + now rewrite <- skipn_skipn_add.
    + intros p Hp. replace p with (k + (p - k))%nat by lia.
      rewrite <- skipn_skipn_add. apply Hno. lia.
    + now rewrite <- Nat.add_assoc.
Qed.

(** A character that is not in [u] cannot begin a match inside [u]. *)
Lemma no_match_without_first_char (c : ascii) (d u v : cxx_string) :
  ~ In c u ->
  forall p, (p < List.length u)%nat ->
            starts_with (c :: d) (skipn p (u ++ v)) = false.
Proof.
  induction u as [|x u IH]; intros Hc p Hp; simpl in Hp; [lia|].
  destruct p as [|p].
  - simpl. replace (Ascii.eqb c x) with false; [reflexivity|].
    symmetry. apply Ascii.eqb_neq. intros ->. apply Hc. now left.
  - simpl. apply IH; [|lia]. intros Hin. apply Hc. now right.
Qed.

(** Segments that avoid the first character of the delimiter are the
    segments of their own join. *)
Lemma segments_from_of_join (c : ascii) (d : cxx_string)
  (segs : list cxx_string) :
  segs <> [] ->
  Forall (fun seg => ~ In c seg) segs ->
  segments_from (join segs (c :: d)) (c :: d) 0 segs.
Proof.
  induction segs as [|seg segs IH]; intros Hne Hall; [contradiction|].
  inversion Hall as [|? ? Hc Hrest]; subst.
  destruct segs as [|seg2 segs].
  - change (segments_from seg (c :: d) 0 [skipn 0 seg]).
    apply segments_last; [lia|]. intros p Hp.
    destruct (Nat.eq_dec p (List.length seg)) as [-> | Hneq].
    + now rewrite skipn_all.
    + rewrite <- (app_nil_r seg).
      apply no_match_without_first_char; [exact Hc | lia].
  - set (rest := join (seg2 :: segs) (c :: d)).
    change (join (seg :: seg2 :: segs) (c :: d))
      with (seg ++ (c :: d) ++ rest).
    set (text := seg ++ (c :: d) ++ rest).
    assert (Hseg : seg = firstn (List.length seg - 0) (skipn 0 text)).
    { unfold text. simpl skipn. rewrite Nat.sub_0_r.
      now rewrite firstn_app, firstn_all, Nat.sub_diag, app_nil_r. }
    assert (Hafter : skipn (List.length seg + List.length (c :: d)) text
                     = rest).
    { unfold text. rewrite app_assoc, <- length_app.
      now rewrite skipn_app, skipn_all, Nat.sub_diag. }
    rewrite Hseg at 1. apply segments_next.
    + lia.
    + unfold text. rewrite !length_app. lia.
    + unfold text. rewrite skipn_app, skipn_all, Nat.sub_diag. simpl skipn.
      apply starts_with_iff. now exists rest.
    + intros p Hp. unfold text.
      apply no_match_without_first_char; [exact Hc | lia].
    + rewrite <- (Nat.add_0_r (List.length seg + List.length (c :: d))).
      apply segments_from_suffix.
      * unfold text. rewrite !length_app. lia.
      * rewrite Hafter. apply IH; [discriminate | exact Hrest].
Qed.

(** Length of a join: the characters of the segments and one delimiter
    per seam. *)
Lemma join_length (segs : list cxx_string) (sep : cxx_string) :
  segs <> [] ->
  (List.length (join segs sep) + List.length sep
   = list_sum (map (@List.length ascii) segs)
     + List.length segs * List.length sep)%nat.
Proof.
  induction segs as [|seg segs IH]; intros Hne; [contradiction|].
  destruct segs as [|seg2 segs].
  - simpl. lia.
  - change (join (seg :: seg2 :: segs) sep)
      with (seg ++ sep ++ join (seg2 :: segs) sep).
    rewrite !length_app.
    specialize (IH ltac:(discriminate)).
    simpl map in *. simpl list_sum in *. simpl List.length in *. lia.
Qed.

(** ** Further properties of [split_by_delimiter] *)

(** X1, no exception: whatever the delimiter, empty or not, no
    [substr] call of the function throws [std::out_of_range]; a call
    either returns or is still looping when the fuel runs out. *)
Theorem split_never_throws (text delim : cxx_string) (fuel : nat) :
  size text < npos ->
  split_by_delimiter fuel text delim = OutOfFuel
  \/ exists segs, split_by_delimiter fuel text delim = Returned segs.
Proof.
  intros Hfit. unfold split_by_delimiter.
  destruct delim as [|c d].
  - left. apply run_loop_empty_delimiter.
  - destruct (segments_from_exists text (c :: d) 0 ltac:(discriminate) Hfit
                ltac:(lia)) as (segs & Hsegs).
    rewrite (run_loop_exact text (c :: d) 0 segs Hfit Hsegs) by reflexivity.
    destruct (List.length segs <=? fuel)%nat; [right | left]; eauto.
Qed.

Lemma split_never_throws_witness :
  split_by_delimiter 2 (str "a,b") (str ",") = OutOfFuel
  \/ exists segs, split_by_delimiter 2 (str "a,b") (str ",") = Returned segs.
Proof.
  apply (split_never_throws (str "a,b") (str ",") 2). reflexivity.
Defined.

(** X2, loop invariant: in every state of a call, for any delimiter, the
    search position lies inside the text and the segments pushed so far,
    each followed by the delimiter, spell out exactly the part of the
    text before the search position. *)
Theorem pushed_segments_spell_prefix (text delim : cxx_string)
  (st : loop_state) :
  size text < npos ->
  reachable text delim st ->
  0 <= start st <= size text
  /\ flat_map (fun seg => seg ++ delim) (result st)
     = firstn (Z.to_nat (start st)) text.
Proof.
  intros Hfit. induction 1 as [|st st' Hreach [Hin IH] Hstep].
  - simpl. pose proof (size_nonneg text). split; [lia | reflexivity].
  - destruct (reachable_step text delim st st' Hfit Hreach Hstep)
      as (s & e & Hst & _ & Hse & Hocc & _ & Hres & Hst' & Hle).
    split; [pose proof (size_nonneg delim); lia|].
    rewrite Hres, flat_map_app.
    etransitivity; [apply (f_equal2 (@app ascii)); [exact IH | reflexivity]|].
    rewrite Hst, Nat2Z.id. simpl flat_map.
    rewrite app_nil_r, app_assoc, firstn_segment by exact Hse.
    rewrite Hst'. unfold size. rewrite <- Nat2Z.inj_add, Nat2Z.id.
    destruct Hocc as (pre & post & -> & <-).
    rewrite firstn_app, firstn_all, Nat.sub_diag, app_nil_r.
    rewrite firstn_app, firstn_all2 by lia.
    replace (List.length pre + List.length delim - List.length pre)%nat
      with (List.length delim) by lia.
    now rewrite firstn_app, firstn_all, Nat.sub_diag, app_nil_r.
Qed.

Lemma pushed_segments_spell_prefix_witness :
  0 <= start {| result := [str "a"]; start := 3 |} <= size (str "a::b")
  /\ flat_map (fun seg => seg ++ str "::")
       (result {| result := [str "a"]; start := 3 |})
     = firstn (Z.to_nat (start {| result := [str "a"]; start := 3 |}))
         (str "a::b").
Proof.
  apply (pushed_segments_spell_prefix (str "a::b") (str "::")
           {| result := [str "a"]; start := 3 |}).
  - reflexivity.
  - apply (reach_step _ _ initial_state); [constructor | reflexivity].
Defined.

(** X3, number of iterations: for a non-empty delimiter the loop body
    runs once per counted occurrence.  Fuel for as many evaluations of
    the condition as there are occurrences is not enough, and one more
    makes the call return. *)
Theorem split_fuel_threshold (text delim : cxx_string) (fuel : nat) :
  delim <> [] -> size text < npos ->
  ((fuel <= count_occurrences delim text)%nat ->
   split_by_delimiter fuel text delim = OutOfFuel)
  /\ ((count_occurrences delim text < fuel)%nat ->
      exists segs, split_by_delimiter fuel text delim = Returned segs).
Proof.
  intros Hd Hfit. unfold split_by_delimiter.
  destruct (segments_from_exists text delim 0 Hd Hfit ltac:(lia))
    as (segs & Hsegs).
  rewrite (run_loop_exact text delim 0 segs Hfit Hsegs) by reflexivity.
  pose proof (segments_from_count text delim Hd 0 segs Hsegs) as Hlen.
  simpl skipn in Hlen. rewrite Hlen. split; intros Hfuel.
  - replace (S (count_occurrences delim text) <=? fuel)%nat with false;
      [reflexivity|].
    symmetry. apply Nat.leb_gt. lia.
  - replace (S (count_occurrences delim text) <=? fuel)%nat with true;
      [eauto|].
    symmetry. apply Nat.leb_le. lia.
Qed.

Lemma split_fuel_threshold_witness :
  split_by_delimiter 2 (str "a,b,c") (str ",") = OutOfFuel
  /\ exists segs,
       split_by_delimiter 3 (str "a,b,c") (str ",") = Returned segs.
Proof.
  split.
  - apply (split_fuel_threshold (str "a,b,c") (str ",") 2);
      [discriminate | reflexivity | vm_compute; lia].
  - apply (split_fuel_threshold (str "a,b,c") (str ",") 3);
      [discriminate | reflexivity | vm_compute; lia].
Defined.

(** X4, splitting after the first match: when the first [find] of a call
    with a non-empty delimiter gives a position [e] of the text, the call
    returns the text before [e] followed by what a call on the rest of
    the text, after the match, returns. *)
Theorem split_after_first_match (text delim : cxx_string) (e fuel : nat)
  (segs : list cxx_string) :
  delim <> [] -> size text < npos -> (e <= List.length text)%nat ->
  find text delim 0 = Z.of_nat e ->
  split_by_delimiter fuel (skipn (e + List.length delim) text) delim
  = Returned segs ->
  split_by_delimiter (S fuel) text delim = Returned (firstn e text :: segs).
Proof.
  intros Hd Hfit He Hfind Hrest.
  destruct (find_cases text delim 0 ltac:(lia))
    as [[Hn _] | (e' & _ & Hel & Hf & Hm & Hno)]; simpl Z.of_nat in *.
  - rewrite Hn in Hfind. unfold size in Hfit. lia.
  - assert (e' = e) as -> by lia.
    apply split_returned_iff in Hrest as [Hsegs Hlen]; auto.
    + apply split_returned_iff; auto. split; [|simpl; lia].
      rewrite <- (Nat.sub_0_r e) at 1.
      change text with (skipn 0 text) at 2.
      apply segments_next; auto; try lia.
      rewrite <- (Nat.add_0_r (e + List.length delim)).
      now apply segments_from_suffix.
    + unfold size in *. rewrite length_skipn. lia.
Qed.

Lemma split_after_first_match_witness :
  split_by_delimiter 3 (str "a::b::c") (str "::")
  = Returned (firstn 1 (str "a::b::c") :: [str "b"; str "c"]).
Proof.
  apply (split_after_first_match (str "a::b::c") (str "::") 1 2
           [str "b"; str "c"]).
  - discriminate.
  - reflexivity.
  - simpl. lia.
  - reflexivity.
  - reflexivity.
Defined.

(** X5, split after join: segments that do not contain the first
    character of the delimiter come back unchanged when their join is
    split, as soon as the fuel covers one evaluation of the condition per
    segment. *)
Theorem split_join_inverse (c : ascii) (d : cxx_string)
  (segs : list cxx_string) (fuel : nat) :
  segs <> [] ->
  Forall (fun seg => ~ In c seg) segs ->
  size (join segs (c :: d)) < npos ->
  (List.length segs <= fuel)%nat ->
  split_by_delimiter fuel (join segs (c :: d)) (c :: d) = Returned segs.
Proof.
  intros Hne Hall Hfit Hfuel.
  apply split_returned_iff; [discriminate | exact Hfit |].
  split; [|exact Hfuel]. now apply segments_from_of_join.
Qed.

Lemma split_join_inverse_witness :
  split_by_delimiter 3 (join [str "a"; str ""; str "b"] (str "::"))
    (str "::")
  = Returned [str "a"; str ""; str "b"].
Proof.
  apply (split_join_inverse ":"%char (str ":") [str "a"; str ""; str "b"] 3).
  - discriminate.
  - repeat constructor; simpl; intuition discriminate.
  - reflexivity.
  - simpl. lia.
Defined.

(** X6, nothing is lost: two texts that split, on the same non-empty
    delimiter, into the same segments are the same text. *)
Theorem split_injective (text1 text2 delim : cxx_string)
  (fuel1 fuel2 : nat) (segs : list cxx_string) :
  delim <> [] -> size text1 < npos -> size text2 < npos ->
  split_by_delimiter fuel1 text1 delim = Returned segs ->
  split_by_delimiter fuel2 text2 delim = Returned segs ->
  text1 = text2.
Proof.
  intros Hd Hfit1 Hfit2 H1 H2.
  apply split_returned_iff in H1 as [H1 _]; auto.
  apply split_returned_iff in H2 as [H2 _]; auto.
  apply segments_from_join in H1, H2. simpl skipn in *. congruence.
Qed.

Lemma split_injective_witness : str "a,b" = str "a,b".
Proof.
  apply (split_injective (str "a,b") (str "a,b") (str ",") 2 5
           [str "a"; str "b"]);
    try reflexivity.
  discriminate.
Defined.

(** X7, length accounting: for a non-empty delimiter, the characters of
    the returned segments together with one delimiter per counted
    occurrence add up to the length of the text. *)
Theorem split_lengths_add_up (text delim : cxx_string) (fuel : nat) :
  delim <> [] -> size text < npos -> enough_fuel text delim fuel ->
  exists segs,
    split_by_delimiter fuel text delim = Returned segs
    /\ (list_sum (map (@List.length ascii) segs)
        + count_occurrences delim text * List.length delim
        = List.length text)%nat.
Proof.
  intros Hd Hfit Hfuel.
  destruct (split_segments text delim Hfit Hd fuel Hfuel) as (segs & Hr & Hs).
  exists segs. split; [exact Hr|].
  pose proof (segments_from_nonempty text delim 0 segs Hs) as Hne.
  pose proof (join_length segs delim Hne) as Hj.
  rewrite (segments_from_join text delim 0 segs Hs) in Hj. simpl skipn in Hj.
  pose proof (segments_from_count text delim Hd 0 segs Hs) as Hc.
  simpl skipn in Hc. rewrite Hc in Hj. lia.
Qed.

Lemma split_lengths_add_up_witness :
  exists segs,
    split_by_delimiter 8 (str "ab::c::") (str "::") = Returned segs
    /\ (list_sum (map (@List.length ascii) segs)
        + count_occurrences (str "::") (str "ab::c::")
          * List.length (str "::")
        = List.length (str "ab::c::"))%nat.
Proof.
  apply (split_lengths_add_up (str "ab::c::") (str "::") 8).
  - discriminate.
  - reflexivity.
  - vm_compute. lia.
Defined.

(** X8, delimiter longer than the text: the call returns the text as its
    only segment after a single evaluation of the loop condition. *)
Theorem split_delimiter_longer_than_text (text delim : cxx_string)
  (fuel : nat) :
  size text < npos -> size text < size delim -> (0 < fuel)%nat ->
  split_by_delimiter fuel text delim = Returned [text].
Proof.
  intros Hfit Hlong Hfuel.
  assert (Hd : delim <> []).
  { intros ->. pose proof (size_nonneg text). unfold size in *.
    simpl in *. lia. }
  apply split_returned_iff; auto. split; [|simpl; lia].
  change [text] with [skipn 0 text]. apply segments_last; [lia|].
  intros p Hp. destruct (starts_with delim (skipn p text)) eqn:E; auto.
  apply starts_with_length in E. rewrite length_skipn in E.
  unfold size in *. lia.
Qed.

Lemma split_delimiter_longer_than_text_witness :
  split_by_delimiter 1 (str "ab") (str "abc") = Returned [str "ab"].
Proof.
  apply (split_delimiter_longer_than_text (str "ab") (str "abc") 1).
  - reflexivity.
  - reflexivity.
  - lia.
Defined.

Lemma occurs_in_intro (p s pre post : cxx_string) :
  s = pre ++ p ++ post -> occurs_in p s.
Proof. intros ->. exists (List.length pre), pre, post. auto. Qed.

Lemma occurs_in_single (c : ascii) (s : cxx_string) :
  In c s -> occurs_in [c] s.
Proof.
  intros Hin. apply in_split in Hin as (l1 & l2 & ->).
  now apply (occurs_in_intro _ _ l1 l2).
Qed.

(** Joining two non-empty runs of segments puts one delimiter at the
    seam. *)
Lemma join_app (segs1 segs2 : list cxx_string) (sep : cxx_string) :
  segs1 <> [] -> segs2 <> [] ->
  join (segs1 ++ segs2) sep = join segs1 sep ++ sep ++ join segs2 sep.
Proof.
  intros Hne1 Hne2. induction segs1 as [|a segs1 IH]; [contradiction|].
  destruct segs1 as [|a2 segs1].
  - destruct segs2; [contradiction | reflexivity].
  - change (join ((a :: a2 :: segs1) ++ segs2) sep)
      with (a ++ sep ++ join ((a2 :: segs1) ++ segs2) sep).
    rewrite IH by discriminate.
    change (join (a :: a2 :: segs1) sep)
      with (a ++ sep ++ join (a2 :: segs1) sep).
    now rewrite <- !app_assoc.
Qed.

(** Every segment of a join is a substring of the join. *)
Lemma join_contains_segments (segs : list cxx_string) (sep : cxx_string)
  (seg : cxx_string) :
  In seg segs -> occurs_in seg (join segs sep).
Proof.
  induction segs as [|a segs IH]; intros Hin; [contradiction|].
  destruct segs as [|a2 segs].
  - destruct Hin as [-> | []].
    apply (occurs_in_intro _ _ [] []). simpl. now rewrite app_nil_r.
  - change (join (a :: a2 :: segs) sep)
      with (a ++ sep ++ join (a2 :: segs) sep).
    destruct Hin as [-> | Hin].
    + now apply (occurs_in_intro _ _ [] (sep ++ join (a2 :: segs) sep)).
    + destruct (IH Hin) as (k & pre & post & Hj & _). rewrite Hj.
      apply (occurs_in_intro _ _ (a ++ sep ++ pre) post).
      now rewrite <- !app_assoc.
Qed.

(** X9, concatenation with a one-character delimiter: the text made of
    [text1], the delimiter character and [text2] splits into the segments
    of [text1] followed by the segments of [text2]. *)
Theorem split_concat_single_char (c : ascii) (text1 text2 : cxx_string)
  (fuel1 fuel2 : nat) (segs1 segs2 : list cxx_string) :
  size (text1 ++ [c] ++ text2) < npos ->
  split_by_delimiter fuel1 text1 [c] = Returned segs1 ->
  split_by_delimiter fuel2 text2 [c] = Returned segs2 ->
  split_by_delimiter (fuel1 + fuel2) (text1 ++ [c] ++ text2) [c]
  = Returned (segs1 ++ segs2).
Proof.
  intros Hfit H1 H2.
  assert (Hd : [c] <> []) by discriminate.
  assert (Hfit1 : size text1 < npos).
  { unfold size in *. rewrite !length_app in Hfit. lia. }
  assert (Hfit2 : size text2 < npos).
  { unfold size in *. rewrite !length_app in Hfit. lia. }
  apply split_returned_iff in H1 as [Hs1 Hl1]; auto.
  apply split_returned_iff in H2 as [Hs2 Hl2]; auto.
  pose proof (segments_from_nonempty _ _ _ _ Hs1) as Hne1.
  pose proof (segments_from_nonempty _ _ _ _ Hs2) as Hne2.
  assert (Hjoin : join (segs1 ++ segs2) [c] = text1 ++ [c] ++ text2).
  { rewrite join_app by assumption.
    rewrite (segments_from_join _ _ _ _ Hs1).
    now rewrite (segments_from_join _ _ _ _ Hs2). }
  apply split_returned_iff; auto. split; [|rewrite length_app; lia].
  rewrite <- Hjoin. apply segments_from_of_join.
  - destruct segs1; [contradiction | discriminate].
  - apply Forall_app. split.
    + eapply Forall_impl; [|exact (segments_from_clean _ _ Hd _ _ Hs1)].
      intros seg Hno Hin. apply Hno. now apply occurs_in_single.
    + eapply Forall_impl; [|exact (segments_from_clean _ _ Hd _ _ Hs2)].
      intros seg Hno Hin. apply Hno. now apply occurs_in_single.
Qed.

Lemma split_concat_single_char_witness :
  split_by_delimiter (2 + 3) (str "a,b" ++ [","%char] ++ str ",c,d")
    [","%char]
  = Returned ([str "a"; str "b"] ++ [str ""; str "c"; str "d"]).
Proof.
  apply (split_concat_single_char ","%char (str "a,b") (str ",c,d") 2 3
           [str "a"; str "b"] [str ""; str "c"; str "d"]);
    reflexivity.
Defined.

(** X10, segments are substrings: for a non-empty delimiter, every
    returned segment occurs in the text. *)
Theorem split_segments_are_substrings (text delim : cxx_string)
  (fuel : nat) :
  delim <> [] -> size text < npos -> enough_fuel text delim fuel ->
  exists segs,
    split_by_delimiter fuel text delim = Returned segs
    /\ Forall (fun seg => occurs_in seg text) segs.
Proof.
  intros Hd Hfit Hfuel.
  destruct (split_segments text delim Hfit Hd fuel Hfuel) as (segs & Hr & Hs).
  exists segs. split; [exact Hr|].
  apply Forall_forall. intros seg Hin.
  pose proof (segments_from_join text delim 0 segs Hs) as Hj.
  simpl skipn in Hj. rewrite <- Hj. now apply join_contains_segments.
Qed.

Lemma split_segments_are_substrings_witness :
  exists segs,
    split_by_delimiter 5 (str "ab,c") (str ",") = Returned segs
    /\ Forall (fun seg => occurs_in seg (str "ab,c")) segs.
Proof.
  apply (split_segments_are_substrings (str "ab,c") (str ",") 5).
  - discriminate.
  - reflexivity.
  - vm_compute. lia.
Defined.
